(** * Risk Profile Assessment Service: scoring, rescaling, allocation lookup

    A shallow embedding of [assessment.py].  The module is a pipeline of
    three pure stages, composed by the request handler [assess_risk]:

    - [calculate_gl_score] validates the submitted answers in one
      left-to-right scan and sums their points (Grable-Lytton score);
    - [scale_to_bibit_score] rescales the score linearly onto 1.0 .. 10.0
      and quantises it to steps of 0.5;
    - [get_allocations] looks the quantised score up in a static table.

    Modelling choices.
    - Python [int] is [Z].  Python [float] is modelled by the exact
      rationals [Q], compared with [Qeq]; [round] is Python's
      round-half-to-even.  Two further copies of the rescaler tie the
      exact model to the arithmetic that the interpreter performs: the
      module [Binary64] runs it on IEEE binary64 numbers and is evaluated
      on every score the scorer can return, and
      [scale_to_bibit_score_rounded] rounds the result of every operation
      with an arbitrary monotone rounding.
    - [raise HTTPException(status_code, detail)] is the left injection of a
      sum type; the f-string of [detail] is kept in structured form, one
      constructor per message with the interpolated values as arguments.
    - The outer dict [GL_SCORING_KEY] is a [gmap]; the per-question dicts
      are association lists, because the order of their keys is observable
      in the invalid-choice message.  [answered_questions] is a [gset]. *)

From Stdlib Require Import ZArith QArith Qround Qabs Qminmax Lqa Lia Floats.
From stdpp Require Import base gmap sets list strings.

Local Open Scope Z_scope.

(** ** Exceptions *)

(** The [detail] of an [HTTPException], one constructor per f-string. *)
Inductive Detail : Type :=
  | AnsweredMoreThanOnce (q_num : Z)
      (* f"Question {q_num} answered more than once." *)
  | InvalidQuestionNumber (q_num : Z)
      (* f"Invalid question number: {q_num}" *)
  | InvalidAnswerChoice (ans : string) (q_num : Z) (choices : list string)
      (* f"Invalid answer choice '{ans}' for Question {q_num}. Choices: {...}" *)
  | MustProvideAll13
      (* "Must provide answers for all 13 unique questions." *)
  | ScoreNotInTable (bibit_score : Q).
      (* f"Bibit score {bibit_score} not found in allocation table." *)

Record HTTPException : Type := mkHTTPException {
  status_code : Z;
  detail : Detail
}.

(** A computation that returns an [A] or raises an [HTTPException]. *)
Definition Raises (A : Type) : Type := (HTTPException + A)%type.

Definition raise {A} (status : Z) (d : Detail) : Raises A :=
  inl (mkHTTPException status d).

(** Sequencing stops at the first exception; this gives [Raises] the
    [x ← c; k] notation. *)
#[global] Instance Raises_ret : MRet Raises := λ A a, inr a.
#[global] Instance Raises_bind : MBind Raises := λ A B k c,
  match c with
  | inl e => inl e
  | inr a => k a
  end.

(** ** Numbers *)

(** The order of [Q] unfolds to the order of [Z] on cross products, which
    is decidable; this lets the code's comparisons be written [decide]. *)
#[global] Instance Qle_dec (x y : Q) : Decision (x <= y)%Q :=
  decide (Qnum x * QDen y ≤ Qnum y * QDen x).
#[global] Instance Qlt_dec (x y : Q) : Decision (x < y)%Q :=
  decide (Qnum x * QDen y < Qnum y * QDen x).

(** ** Static tables *)

(** Lookup in a dict kept as an association list (first binding wins;
    the literals below have no repeated key). *)
Fixpoint assoc (k : string) (d : list (string * Z)) : option Z :=
  match d with
  | [] => None
  | (k', v) :: d' => if decide (k = k') then Some v else assoc k d'
  end.

Definition keys (d : list (string * Z)) : list string := d.*1.

Definition GL_SCORING_KEY : gmap Z (list (string * Z)) :=
  list_to_map [
    (1,  [("A", 4); ("B", 3); ("C", 2); ("D", 1)]);
    (2,  [("A", 1); ("B", 2); ("C", 3); ("D", 4)]);
    (3,  [("A", 1); ("B", 2); ("C", 3); ("D", 4)]);
    (4,  [("A", 1); ("B", 2); ("C", 3)]);
    (5,  [("A", 1); ("B", 2); ("C", 3)]);
    (6,  [("A", 1); ("B", 2); ("C", 3); ("D", 4)]);
    (7,  [("A", 1); ("B", 2); ("C", 3); ("D", 4)]);
    (8,  [("A", 1); ("B", 2); ("C", 3); ("D", 4)]);
    (9,  [("A", 1); ("B", 3)]);
    (10, [("A", 1); ("B", 3)]);
    (11, [("A", 1); ("B", 2); ("C", 3); ("D", 4)]);
    (12, [("A", 1); ("B", 2); ("C", 3); ("D", 4)]);
    (13, [("A", 1); ("B", 2); ("C", 3); ("D", 4)])
  ].
#[global] Arguments GL_SCORING_KEY : simpl never.

(** ** Request model *)

Record Answer : Type := mkAnswer {
  question : Z;
  answer : string
}.

(** ** Stage 1: [calculate_gl_score] *)

(** One iteration of the [for item in answers] loop, on the loop state
    [(score, answered_questions)]. *)
Definition score_item (st : Z * gset Z) (item : Answer) : Raises (Z * gset Z) :=
  let '(score, answered_questions) := st in
  let q_num := question item in
  let ans := answer item in
  if decide (q_num ∈ answered_questions)
  then raise 400 (AnsweredMoreThanOnce q_num)
  else
    let answered_questions := {[q_num]} ∪ answered_questions in
    match GL_SCORING_KEY !! q_num with
    | None => raise 400 (InvalidQuestionNumber q_num)
    | Some choices =>
        match assoc ans choices with
        | None => raise 400 (InvalidAnswerChoice ans q_num (keys choices))
        | Some points => mret (score + points, answered_questions)
        end
    end.

Fixpoint scan_answers (st : Z * gset Z) (answers : list Answer)
    : Raises (Z * gset Z) :=
  match answers with
  | [] => mret st
  | item :: rest => st' ← score_item st item ; scan_answers st' rest
  end.

Definition calculate_gl_score (answers : list Answer) : Raises Q :=
  '(score, answered_questions) ← scan_answers (0, ∅) answers ;
  if decide (size answered_questions ≠ 13%nat)
  then raise 400 MustProvideAll13
  else mret (inject_Z score).

(** ** Stage 2: [scale_to_bibit_score] *)

(** Python's [round(x)] with one argument: the nearest integer, a tie
    going to the even neighbour. *)
Definition py_round (x : Q) : Z :=
  let f := Qfloor x in
  match (x - inject_Z f ?= 1 # 2)%Q with
  | Lt => f
  | Gt => f + 1
  | Eq => if Z.even f then f else f + 1
  end.

(** Python's two-argument [min] and [max] return their first argument
    unless the second is strictly smaller (larger). *)
Definition py_min (a b : Q) : Q := if decide (b < a)%Q then b else a.
Definition py_max (a b : Q) : Q := if decide (a < b)%Q then b else a.

Definition scale_to_bibit_score (gl_score : Q) : Q :=
  let X_min := 0%Q in
  let X_max := 47%Q in
  let Y_min := 1%Q in
  let Y_max := 10%Q in
  if decide (gl_score <= X_min)%Q then Y_min
  else if decide (X_max <= gl_score)%Q then Y_max
  else
    let unrounded_b_score :=
      (Y_min + (gl_score * (Y_max - Y_min) / (X_max - X_min)))%Q in
    let step := (1 # 2)%Q in
    let rounded_b_score :=
      (inject_Z (py_round (unrounded_b_score / step)) * step)%Q in
    py_max Y_min (py_min Y_max rounded_b_score).

(** ** Stage 3: [get_allocations] *)

(** A row of the allocation dict, with its four keys as fields. *)
Record Allocation : Type := mkAllocation {
  profile : string;
  money_market : Z;
  obligation : Z;
  stocks : Z
}.

(** The allocation dict is keyed by floats; a key is found when it is
    numerically equal to the score looked up. *)
Definition BIBIT_ALLOCATIONS : list (Q * Allocation) := [
  (1,      mkAllocation "Konservatif" 70 20 10);
  (3 # 2,  mkAllocation "Konservatif" 70 20 10);
  (2,      mkAllocation "Konservatif" 58 32 10);
  (5 # 2,  mkAllocation "Konservatif" 47 43 10);
  (3,      mkAllocation "Konservatif" 36 54 10);
  (7 # 2,  mkAllocation "Konservatif" 27 62 11);
  (4,      mkAllocation "Konservatif" 18 69 13);
  (9 # 2,  mkAllocation "Moderat" 12 70 18);
  (5,      mkAllocation "Moderat" 10 65 25);
  (11 # 2, mkAllocation "Moderat" 10 59 31);
  (6,      mkAllocation "Moderat" 10 53 37);
  (13 # 2, mkAllocation "Moderat" 10 48 42);
  (7,      mkAllocation "Moderat" 10 43 47);
  (15 # 2, mkAllocation "Agresif" 10 38 52);
  (8,      mkAllocation "Agresif" 10 34 56);
  (17 # 2, mkAllocation "Agresif" 10 29 61);
  (9,      mkAllocation "Agresif" 10 24 66);
  (19 # 2, mkAllocation "Agresif" 10 20 70);
  (10,     mkAllocation "Agresif" 10 20 70)
]%Q.

Fixpoint table_get (bibit_score : Q) (table : list (Q * Allocation))
    : option Allocation :=
  match table with
  | [] => None
  | (key, row) :: table' =>
      if Qeq_bool bibit_score key then Some row
      else table_get bibit_score table'
  end.

Definition get_allocations (bibit_score : Q) : Raises Allocation :=
  match table_get bibit_score BIBIT_ALLOCATIONS with
  | None => raise 500 (ScoreNotInTable bibit_score)
  | Some row => mret row
  end.

(** ** The request handler [assess_risk] *)

Record RiskAssessmentPayload : Type := mkPayload {
  answers : list Answer
}.

(** The response model; [response_profile] is its field [profile], a
    name that [Allocation] has taken. *)
Record AllocationResponse : Type := mkAllocationResponse {
  gl_score : Q;
  risk_profile_score : Q;
  response_profile : string;
  allocations : gmap string Q
}.

Definition assess_risk (payload : RiskAssessmentPayload)
    : Raises AllocationResponse :=
  gl_score ← calculate_gl_score (answers payload);
  let bibit_score := scale_to_bibit_score gl_score in
  allocation_data ← get_allocations bibit_score;
  mret {|
    gl_score := gl_score;
    risk_profile_score := bibit_score;
    response_profile := profile allocation_data;
    allocations :=
      {[ "money_market" := inject_Z (money_market allocation_data);
         "obligation" := inject_Z (obligation allocation_data);
         "stocks" := inject_Z (stocks allocation_data) ]}
  |}.

(** The constraints that the request schema puts on a payload before the
    handler runs: exactly 13 answers, each with a question number from 1
    to 13 and a letter from A to D. *)
Definition well_formed (payload : RiskAssessmentPayload) : Prop :=
  length (answers payload) = 13%nat ∧
  Forall (λ a, 1 ≤ question a ≤ 13 ∧ answer a ∈ ["A"; "B"; "C"; "D"])
         (answers payload).

(** ** The rescaler on IEEE binary64 numbers

    The same function over the kernel's binary64 floats, operation by
    operation as the interpreter evaluates it.  [round] raises on NaN and
    on an infinity, which is the [None] below. *)
Module Binary64.

(** [float(n)] for an [int]. *)
Definition of_int (n : Z) : float :=
  SF2Prim (binary_normalize prec emax n 0 false).

(** The value of a finite float as a rational. *)
Definition to_Q (x : float) : option Q :=
  match Prim2SF x with
  | S754_zero _ => Some 0%Q
  | S754_finite s m e =>
      let v := (inject_Z (Z.pos m) * Qpower 2 e)%Q in
      Some (if s then - v else v)%Q
  | S754_infinity _ | S754_nan => None
  end.

(** [m * 2^e] rounded to the nearest integer, ties to even. *)
Definition round_scaled (m : positive) (e : Z) : Z :=
  if decide (0 ≤ e) then Z.pos m * 2 ^ e
  else
    let d := 2 ^ (- e) in
    let q := Z.pos m / d in
    match 2 * (Z.pos m mod d) ?= d with
    | Lt => q
    | Gt => q + 1
    | Eq => if Z.even q then q else q + 1
    end.

Definition py_round (x : float) : option Z :=
  match Prim2SF x with
  | S754_zero _ => Some 0
  | S754_finite s m e =>
      let n := round_scaled m e in Some (if s then - n else n)
  | S754_infinity _ | S754_nan => None
  end.

Definition py_min (a b : float) : float := if (b <? a)%float then b else a.
Definition py_max (a b : float) : float := if (a <? b)%float then b else a.

Definition scale_to_bibit_score (gl_score : float) : option float :=
  let X_min := 0%float in
  let X_max := 47%float in
  let Y_min := 1%float in
  let Y_max := 10%float in
  if (gl_score <=? X_min)%float then Some Y_min
  else if (X_max <=? gl_score)%float then Some Y_max
  else
    let unrounded_b_score :=
      (Y_min + (gl_score * (Y_max - Y_min) / (X_max - X_min)))%float in
    let step := 0.5%float in
    n ← py_round (unrounded_b_score / step)%float;
    let rounded_b_score := (of_int n * step)%float in
    Some (py_max Y_min (py_min Y_max rounded_b_score)).

End Binary64.

(** The binary64 run on [float(score)] succeeds and returns the value of
    the exact model. *)
Definition binary64_agrees_at (score : Z) : bool :=
  match Binary64.scale_to_bibit_score (Binary64.of_int score)
        ≫= Binary64.to_Q with
  | Some t => Qeq_bool t (scale_to_bibit_score (inject_Z score))
  | None => false
  end.

(** ** The rescaler under an arbitrary rounding

    The same function again with a rounding [rnd] applied to the result
    of every float operation, [float(n)] included.  With the identity for
    [rnd] it is the exact model; with round-to-nearest it is the behaviour
    of binary64 on finite values. *)
Definition scale_to_bibit_score_rounded (rnd : Q → Q) (gl_score : Q) : Q :=
  let X_min := 0%Q in
  let X_max := 47%Q in
  let Y_min := 1%Q in
  let Y_max := 10%Q in
  if decide (gl_score <= X_min)%Q then Y_min
  else if decide (X_max <= gl_score)%Q then Y_max
  else
    let unrounded_b_score :=
      rnd (Y_min + rnd (rnd (gl_score * rnd (Y_max - Y_min))
                        / rnd (X_max - X_min)))%Q in
    let step := (1 # 2)%Q in
    let rounded_b_score :=
      rnd (rnd (inject_Z (py_round (rnd (unrounded_b_score / step)))) * step)%Q in
    py_max Y_min (py_min Y_max rounded_b_score).

(** The quotient that [scale_to_bibit_score_rounded] hands to [round]. *)
Definition rounded_quotient (rnd : Q → Q) (x : Q) : Q :=
  rnd (rnd (1 + rnd (rnd (x * rnd (10 - 1)) / rnd (47 - 0))) / (1 # 2))%Q.

(** ** Specification vocabulary *)

(** The points the table gives for an answer; [None] when the question is
    not in the table or the letter is not one of its choices. *)
Definition points (a : Answer) : option Z :=
  choices ← GL_SCORING_KEY !! question a; assoc (answer a) choices.

(** An answer whose question is known and whose choice is valid for it. *)
Definition scorable (a : Answer) : Prop := is_Some (points a).

Definition sum_points (l : list Answer) : Z :=
  foldr (λ a s, default 0 (points a) + s) 0 l.

Definition ALL_QUESTIONS : list Z := seqZ 1 13.

(** A valid answer set: every question 1..13 exactly once, each with a
    choice that is valid for it. *)
Definition valid_answer_set (l : list Answer) : Prop :=
  question <$> l ≡ₚ ALL_QUESTIONS ∧ Forall scorable l.

(** The choice of a per-question dict with the most points (the first
    one, if several have the most). *)
Definition best_choice (choices : list (string * Z)) : string * Z :=
  foldr (λ kv best, if decide (best.2 ≤ kv.2) then kv else best) ("", 0) choices.

(** For every question, the choice with the maximum point value. *)
Definition max_answers : list Answer :=
  (λ q, mkAnswer q (best_choice (default [] (GL_SCORING_KEY !! q))).1)
    <$> ALL_QUESTIONS.

(** The 1-point choice of every question: D for question 1, A for the
    others. *)
Definition min_answers : list Answer :=
  (λ q, mkAnswer q (if decide (q = 1) then "D" else "A")) <$> ALL_QUESTIONS.

(** The 19 tiers 1.0, 1.5, ..., 10.0. *)
Definition TIERS : list Q := (λ k, inject_Z k * (1 # 2))%Q <$> seqZ 2 19.



(** The most points a question can give. *)
Definition max_points (q : Z) : Z :=
  (best_choice (default [] (GL_SCORING_KEY !! q))).2.

(** The sum of the maxima of a list of questions. *)
Definition sum_max_points (qs : list Z) : Z :=
  foldr (λ q s, max_points q + s) 0 qs.

(** A well-formed payload in which question 1 is answered twice, after
    an entry that picks D for question 4 (whose choices are A, B, C). *)
Definition repeat_after_invalid_choice : list Answer :=
  [mkAnswer 4 "D"; mkAnswer 1 "A"; mkAnswer 1 "A"; mkAnswer 2 "A";
   mkAnswer 3 "A"; mkAnswer 5 "A"; mkAnswer 6 "A"; mkAnswer 7 "A";
   mkAnswer 8 "A"; mkAnswer 9 "A"; mkAnswer 10 "A"; mkAnswer 11 "A";
   mkAnswer 12 "A"].

(** Closed decidable facts are settled by evaluation. *)
Ltac by_decide := apply (bool_decide_unpack _); vm_compute; exact I.

#[global] Instance scorable_dec a : Decision (scorable a).
Proof. unfold scorable. apply _. Defined.

(** Linear arithmetic over [Q] after pushing [inject_Z] through sums. *)
Ltac qlra :=
  rewrite ?inject_Z_plus in *; change (inject_Z 1) with 1%Q in *;
  try split; lra.

(** Numerical equality of rationals is the equality of cross products. *)
#[global] Instance Qeq_dec' (x y : Q) : Decision (x == y)%Q :=
  decide (Qnum x * QDen y = Qnum y * QDen x).

(** A rounding to use [scale_to_bibit_score_rounded] with: to the
    nearest multiple of 1/1024, ties to even. *)
Definition round_to_1024ths (q : Q) : Q :=
  (inject_Z (py_round (q * 1024)) / 1024)%Q.

(** * Theorems *)

(** ** The scoring table *)

Lemma GL_SCORING_KEY_dom : dom GL_SCORING_KEY = list_to_set ALL_QUESTIONS.
Proof. reflexivity. Qed.

Lemma known_question q :
  is_Some (GL_SCORING_KEY !! q) ↔ q ∈ ALL_QUESTIONS.
Proof.
  rewrite <-elem_of_dom, GL_SCORING_KEY_dom. apply elem_of_list_to_set.
Qed.

Lemma ALL_QUESTIONS_eq :
  ALL_QUESTIONS = [1; 2; 3; 4; 5; 6; 7; 8; 9; 10; 11; 12; 13].
Proof. reflexivity. Qed.

(** A scorable answer is to one of the 13 questions and gives at least 1
    point and at most the question's maximum. *)
Lemma points_Some a p :
  points a = Some p →
  question a ∈ ALL_QUESTIONS ∧ 1 ≤ p ≤ max_points (question a).
Proof.
  unfold points, max_points. destruct a as [q ans]; cbn [question answer].
  intros Hp.
  destruct (GL_SCORING_KEY !! q) as [choices|] eqn:Hq; [|done].
  assert (q ∈ ALL_QUESTIONS) as Hin by (apply known_question; eauto).
  split; [done|]. cbn [mbind option_bind] in Hp.
  rewrite ALL_QUESTIONS_eq in Hin.
  repeat (apply elem_of_cons in Hin as [->|Hin]);
    [..|by apply elem_of_nil in Hin].
  all: vm_compute in Hq; injection Hq as <-.
  all: simpl in Hp; repeat case_decide; try discriminate Hp; injection Hp as <-.
  all: vm_compute; split; discriminate.
Qed.

(** ** The validating scan *)

Section scan.
Implicit Types (a : Answer) (l : list Answer) (score : Z) (answered : gset Z).

Lemma score_item_dup score answered a :
  question a ∈ answered →
  score_item (score, answered) a = raise 400 (AnsweredMoreThanOnce (question a)).
Proof. intros Hin. unfold score_item. by rewrite decide_True. Qed.

Lemma score_item_inr score answered a st' :
  score_item (score, answered) a = inr st' ↔
  (question a ∉ answered) ∧
  (∃ p, points a = Some p ∧ st' = (score + p, {[question a]} ∪ answered)).
Proof.
  unfold score_item, points, raise. case_decide as Hin.
  - split; [done | by intros [? _]].
  - destruct (GL_SCORING_KEY !! question a) as [choices|]; simpl.
    + destruct (assoc (answer a) choices) as [p|]; simpl.
      * split.
        -- intros [= <-]. eauto.
        -- intros (_ & p' & [= <-] & ->). done.
      * split; [done | by intros (_ & ? & ? & _)].
    + split; [done | by intros (_ & ? & ? & _)].
Qed.

Lemma score_item_status st a e :
  score_item st a = inl e → status_code e = 400.
Proof.
  destruct st as [score answered]. unfold score_item, raise.
  repeat (case_decide || case_match); by intros [= <-].
Qed.

Lemma scan_answers_cons st a l :
  scan_answers st (a :: l) =
  match score_item st a with
  | inl e => inl e
  | inr st' => scan_answers st' l
  end.
Proof. done. Qed.

Lemma scan_answers_app l1 l2 st :
  scan_answers st (l1 ++ l2) =
  match scan_answers st l1 with
  | inl e => inl e
  | inr st' => scan_answers st' l2
  end.
Proof.
  revert st. induction l1 as [|a l1 IH]; intros st; [done|].
  rewrite <-app_comm_cons, !scan_answers_cons.
  destruct (score_item st a); [done | apply IH].
Qed.

(** The scan succeeds exactly on lists of distinct, fresh, scorable
    entries, and then it has summed their points and recorded their
    question numbers. *)
Lemma scan_answers_inr l score answered st' :
  scan_answers (score, answered) l = inr st' ↔
  NoDup (question <$> l) ∧
  (∀ q, q ∈ question <$> l → q ∉ answered) ∧
  Forall scorable l ∧
  st' = (score + sum_points l, list_to_set (question <$> l) ∪ answered).
Proof.
  revert score answered. induction l as [|a l IH]; intros score answered.
  - simpl. split.
    + intros [= <-].
      split; [constructor | split; [set_solver | split; [constructor|]]].
      f_equal; [lia | set_solver].
    + intros (_ & _ & _ & ->). unfold mret, Raises_ret.
      do 2 f_equal; [lia | set_solver].
  - rewrite scan_answers_cons. rewrite fmap_cons, NoDup_cons, Forall_cons.
    destruct (score_item (score, answered) a) as [e|[score1 answered1]] eqn:Hitem.
    + split; [done|]. intros ((Hnin & Hnd) & Hfresh & [[p Hp] Hl] & _).
      exfalso.
      assert (score_item (score, answered) a = inr (score + p, {[question a]} ∪ answered)) as Hok.
      { apply score_item_inr. split; [apply Hfresh, list_elem_of_here | eauto]. }
      congruence.
    + apply score_item_inr in Hitem as (Hna & p & Hp & [= -> ->]).
      rewrite IH. simpl. rewrite Hp. simpl. split.
      * intros (Hnd & Hfresh & Hl & ->).
        split; [split; [|done] | split; [|split]].
        -- intros Hin. apply (Hfresh _ Hin). set_solver.
        -- intros q [->|Hq]%elem_of_cons; [done|].
           specialize (Hfresh _ Hq). set_solver.
        -- split; [by exists p | done].
        -- f_equal; [lia | set_solver].
      * intros ((Hnin & Hnd) & Hfresh & [_ Hl] & ->).
        split; [done | split; [|split; [done|]]].
        -- intros q Hq. specialize (Hfresh q). set_solver.
        -- f_equal; [lia | set_solver].
Qed.

Lemma scan_answers_ok l :
  NoDup (question <$> l) → Forall scorable l →
  scan_answers (0, ∅) l =
  inr (sum_points l, list_to_set (question <$> l)).
Proof.
  intros Hnd Hl. apply scan_answers_inr.
  split; [done|]. split; [intros q _; apply not_elem_of_empty|].
  split; [done|]. by rewrite Z.add_0_l, (right_id_L ∅ (∪)).
Qed.

(** The scan meets no duplicate, unknown question or invalid choice
    exactly when the entries are distinct and scorable. *)
Lemma scan_answers_succeeds l :
  (∃ st, scan_answers (0, ∅) l = inr st) ↔
  NoDup (question <$> l) ∧ Forall scorable l.
Proof.
  split.
  - intros [[score answered] (Hnd & _ & Hl & _)%scan_answers_inr]. done.
  - intros [Hnd Hl]. rewrite scan_answers_ok by done. eauto.
Qed.

Lemma scan_answers_status l st e :
  scan_answers st l = inl e → status_code e = 400.
Proof.
  revert st. induction l as [|a l IH]; intros st; [done|].
  rewrite scan_answers_cons.
  destruct (score_item st a) as [e'|st'] eqn:Hitem.
  - intros [= <-]. by eapply score_item_status.
  - apply IH.
Qed.

(** The scan stops with the duplicate error at the first entry whose
    question was already answered, when everything before it was fine. *)
Lemma scan_answers_dup l1 a l2 :
  NoDup (question <$> l1) → Forall scorable l1 →
  question a ∈ question <$> l1 →
  scan_answers (0, ∅) (l1 ++ a :: l2) =
  raise 400 (AnsweredMoreThanOnce (question a)).
Proof.
  intros Hnd Hl Hin.
  rewrite scan_answers_app, scan_answers_ok, scan_answers_cons by done.
  rewrite score_item_dup; [done|]. by apply elem_of_list_to_set.
Qed.

End scan.

(** ** Stage 1: what [calculate_gl_score] returns *)

Section calculate_gl_score.
Implicit Types (a : Answer) (l : list Answer).

(** The function returns a score exactly on 13 distinct scorable
    entries, and the score is the sum of their points. *)
Lemma calculate_gl_score_inr l r :
  calculate_gl_score l = inr r ↔
  NoDup (question <$> l) ∧ Forall scorable l ∧ length l = 13%nat ∧
  r = inject_Z (sum_points l).
Proof.
  unfold calculate_gl_score.
  destruct (scan_answers (0, ∅) l) as [e|st] eqn:Hscan;
    cbn [mbind Raises_bind].
  - split; [done|]. intros (Hnd & Hl & _ & _).
    by rewrite scan_answers_ok in Hscan.
  - assert (NoDup (question <$> l) ∧ Forall scorable l) as [Hnd Hl]
      by (apply scan_answers_succeeds; eauto).
    rewrite scan_answers_ok in Hscan by done. injection Hscan as <-.
    rewrite size_list_to_set, length_fmap by done.
    unfold raise, mret, Raises_ret. case_decide as Hlen.
    + split; [done|]. by intros (_ & _ & ? & _).
    + split; [by intros [= <-] | by intros (_ & _ & _ & ->)].
Qed.

Lemma calculate_gl_score_status l e :
  calculate_gl_score l = inl e → status_code e = 400.
Proof.
  unfold calculate_gl_score. cbn [mbind Raises_bind].
  destruct (scan_answers (0, ∅) l) as [e'|[score answered]] eqn:Hscan.
  - intros [= <-]. by eapply scan_answers_status.
  - cbn [mbind Raises_bind]. unfold raise.
    case_decide; [by intros [= <-] | done].
Qed.

Lemma scorable_known a : scorable a → question a ∈ ALL_QUESTIONS.
Proof. intros [p Hp]. by apply points_Some in Hp as [? _]. Qed.

(** A valid answer set is a list of 13 distinct scorable entries. *)
Lemma valid_answer_set_alt l :
  valid_answer_set l ↔
  NoDup (question <$> l) ∧ Forall scorable l ∧ length l = 13%nat.
Proof.
  unfold valid_answer_set. split.
  - intros [Hperm Hl]. repeat split; [| done |].
    + rewrite Hperm. apply NoDup_seqZ.
    + apply Permutation_length in Hperm.
      by rewrite length_fmap in Hperm.
  - intros (Hnd & Hl & Hlen). split; [|done].
    apply submseteq_length_Permutation.
    + apply NoDup_submseteq; [done|].
      intros q (a & -> & Ha)%list_elem_of_fmap.
      apply scorable_known. by eapply Forall_forall in Hl.
    + by rewrite length_fmap, Hlen.
Qed.

Lemma sum_points_cons a l :
  sum_points (a :: l) = default 0 (points a) + sum_points l.
Proof. done. Qed.

Lemma sum_points_lower l :
  Forall scorable l → Z.of_nat (length l) ≤ sum_points l.
Proof.
  induction 1 as [|a l [p Hp] _ IH]; [done|].
  rewrite sum_points_cons, Hp, length_cons.
  change (default 0 (Some p)) with p.
  apply points_Some in Hp as [_ ?]. lia.
Qed.

Lemma sum_max_points_cons q qs :
  sum_max_points (q :: qs) = max_points q + sum_max_points qs.
Proof. done. Qed.

Lemma sum_points_upper l :
  Forall scorable l → sum_points l ≤ sum_max_points (question <$> l).
Proof.
  induction 1 as [|a l [p Hp] _ IH]; [done|].
  rewrite sum_points_cons, fmap_cons, sum_max_points_cons, Hp.
  change (default 0 (Some p)) with p. apply points_Some in Hp as [_ ?]. lia.
Qed.

Lemma sum_max_points_perm qs1 qs2 :
  qs1 ≡ₚ qs2 → sum_max_points qs1 = sum_max_points qs2.
Proof.
  induction 1; rewrite ?sum_max_points_cons; [done | lia | lia | congruence].
Qed.

(** Every valid answer set is scored, with a score from 13 to 48. *)
Theorem calculate_gl_score_valid l :
  valid_answer_set l →
  ∃ score, calculate_gl_score l = inr (inject_Z score) ∧ 13 ≤ score ≤ 48.
Proof.
  intros Hvalid. pose proof Hvalid as [Hperm _].
  apply valid_answer_set_alt in Hvalid as (Hnd & Hl & Hlen).
  exists (sum_points l). split.
  - by apply calculate_gl_score_inr.
  - pose proof (sum_points_lower l Hl) as Hlo.
    pose proof (sum_points_upper l Hl) as Hhi.
    rewrite (sum_max_points_perm _ _ Hperm) in Hhi.
    rewrite Hlen in Hlo.
    change (sum_max_points ALL_QUESTIONS) with 48 in Hhi. lia.
Qed.

(** Whatever list the function accepts is a valid answer set. *)
Lemma calculate_gl_score_inr_valid l r :
  calculate_gl_score l = inr r →
  valid_answer_set l ∧ ∃ score, r = inject_Z score ∧ 13 ≤ score ≤ 48.
Proof.
  intros Hr. pose proof Hr as (Hnd & Hl & Hlen & ->)%calculate_gl_score_inr.
  assert (valid_answer_set l) as Hvalid by by apply valid_answer_set_alt.
  split; [done|].
  destruct (calculate_gl_score_valid l Hvalid) as (score & Hscore & ?).
  exists score. split; [congruence | done].
Qed.

End calculate_gl_score.

(** ** Stage 2: rounding and rescaling *)

Section rescaler.
Local Open Scope Q_scope.
Implicit Types (x y : Q) (n j : Z).

Lemma py_round_comp x y : x == y → py_round x = py_round y.
Proof.
  intros Hxy. unfold py_round.
  rewrite (Qfloor_comp _ _ Hxy).
  assert (x - inject_Z (Qfloor y) == y - inject_Z (Qfloor y)) as ->
    by (by rewrite Hxy).
  done.
Qed.

(** The rounded value is within one half of the argument. *)
Lemma py_round_bounds y :
  inject_Z (py_round y) - (1 # 2) <= y <= inject_Z (py_round y) + (1 # 2).
Proof.
  unfold py_round.
  pose proof (Qfloor_le y) as Hlo. pose proof (Qlt_floor y) as Hhi.
  destruct (Qcompare_spec (y - inject_Z (Qfloor y)) (1 # 2)) as [He|Hl|Hg];
    [destruct (Z.even (Qfloor y))|..]; qlra.
Qed.

(** On an exact tie the even neighbour is taken. *)
Lemma py_round_tie y :
  Qabs (y - inject_Z (py_round y)) == 1 # 2 → Z.even (py_round y) = true.
Proof.
  unfold py_round.
  pose proof (Qfloor_le y) as Hlo. pose proof (Qlt_floor y) as Hhi.
  destruct (Qcompare_spec (y - inject_Z (Qfloor y)) (1 # 2)) as [He|Hl|Hg].
  - destruct (Z.even (Qfloor y)) eqn:Heven; [done|]. intros _.
    by rewrite Z.even_add, Heven.
  - intros Habs. rewrite Qabs_pos in Habs by qlra. qlra.
  - intros Habs. rewrite Qabs_neg in Habs by qlra. qlra.
Qed.

Lemma py_round_mono x y : x <= y → (py_round x ≤ py_round y)%Z.
Proof.
  intros Hxy. destruct (Z.le_gt_cases (py_round x) (py_round y)) as [|Hlt]; [done|].
  exfalso.
  assert (inject_Z (py_round y) + 1 <= inject_Z (py_round x)) as Hgap.
  { rewrite <-(inject_Z_plus _ 1). rewrite <-Zle_Qle. lia. }
  pose proof (py_round_bounds x) as [Hx _].
  pose proof (py_round_bounds y) as [_ Hy].
  assert (x == y) as Heq by qlra.
  apply py_round_comp in Heq. lia.
Qed.

Lemma py_round_Z n : py_round (inject_Z n) = n.
Proof.
  unfold py_round. rewrite Qfloor_Z.
  destruct (Qcompare_spec (inject_Z n - inject_Z n) (1 # 2)) as [He|Hl|Hg];
    [lra | done | lra].
Qed.


(** The quotient that is rounded, as a linear function of the score. *)
Lemma unrounded_over_step x :
  (1 + x * (10 - 1) / (47 - 0)) / (1 # 2) == 2 + x * (18 # 47).
Proof. field. Qed.

Lemma clamp_tier n :
  (2 ≤ n ≤ 20)%Z →
  py_max 1 (py_min 10 (inject_Z n * (1 # 2))) == inject_Z n * (1 # 2).
Proof.
  intros [Hlo Hhi]. rewrite Zle_Qle in Hlo, Hhi.
  change (inject_Z 2) with 2 in Hlo. change (inject_Z 20) with 20 in Hhi.
  unfold py_max, py_min. repeat case_decide; lra.
Qed.

(** The three cases of the rescaler. *)
Lemma scale_to_bibit_score_cases x :
  (x <= 0 ∧ scale_to_bibit_score x = 1) ∨
  (47 <= x ∧ scale_to_bibit_score x = 10) ∨
  (0 < x < 47 ∧
   (2 ≤ py_round (2 + x * (18 # 47)) ≤ 20)%Z ∧
   scale_to_bibit_score x ==
     inject_Z (py_round (2 + x * (18 # 47))) * (1 # 2)).
Proof.
  unfold scale_to_bibit_score. cbv zeta.
  case_decide as Hlow; [by left|].
  case_decide as Hhigh; [by right; left|].
  right; right.
  apply Qnot_le_lt in Hlow, Hhigh.
  rewrite (py_round_comp _ _ (unrounded_over_step x)).
  assert (2 ≤ py_round (2 + x * (18 # 47)) ≤ 20)%Z as Hn.
  { rewrite <-(py_round_Z 2), <-(py_round_Z 20) at 1.
    split; apply py_round_mono; change (inject_Z 2) with 2;
      change (inject_Z 20) with 20; lra. }
  split; [done|]. split; [done|]. by apply clamp_tier.
Qed.


Lemma scale_to_bibit_score_high x : 47 <= x → scale_to_bibit_score x = 10.
Proof.
  intros Hx. unfold scale_to_bibit_score. cbv zeta.
  rewrite decide_False by (apply Qlt_not_le; lra). by rewrite decide_True.
Qed.

(** The output is half of an integer from 2 to 20. *)
Lemma scale_to_bibit_score_half_steps x :
  ∃ n, (2 ≤ n ≤ 20)%Z ∧ scale_to_bibit_score x == inject_Z n * (1 # 2).
Proof.
  destruct (scale_to_bibit_score_cases x)
    as [[_ ->]|[[_ ->]|(_ & Hn & Hx)]].
  - by exists 2%Z.
  - by exists 20%Z.
  - eauto.
Qed.

End rescaler.

(** ** Stage 1: the claims about [calculate_gl_score] *)

(** The payload of the maximising answers is one the request schema
    accepts, and it is a valid answer set. *)
Lemma max_answers_eq :
  max_answers =
  [mkAnswer 1 "A"; mkAnswer 2 "D"; mkAnswer 3 "D"; mkAnswer 4 "C";
   mkAnswer 5 "C"; mkAnswer 6 "D"; mkAnswer 7 "D"; mkAnswer 8 "D";
   mkAnswer 9 "B"; mkAnswer 10 "B"; mkAnswer 11 "D"; mkAnswer 12 "D";
   mkAnswer 13 "D"].
Proof. reflexivity. Qed.

Lemma max_answers_valid : valid_answer_set max_answers.
Proof.
  split; [reflexivity|]. rewrite max_answers_eq.
  repeat constructor; by_decide.
Qed.

Lemma max_answers_well_formed : well_formed (mkPayload max_answers).
Proof.
  split; [reflexivity|]. rewrite max_answers_eq. cbn [answers].
  repeat constructor; cbn [question answer]; try lia;
    repeat first [apply list_elem_of_here | apply list_elem_of_further].
Qed.

(** Each maximising answer gives its question's maximum, so no valid
    answer set scores more. *)
Lemma max_answers_maximal :
  Forall (λ a, points a = Some (max_points (question a))) max_answers.
Proof. rewrite max_answers_eq. repeat constructor. Qed.

(** C1.  On the valid 13-entry answer set that takes the best choice of
    every question, a payload the request schema accepts,
    [calculate_gl_score] does not fail but returns 48: the score of a
    valid answer set is not always within the range 13 to 47 that the
    claim (and the code's own description of the score) gives. *)
Theorem C1_max_answers_score_is_48 :
  valid_answer_set max_answers ∧
  well_formed (mkPayload max_answers) ∧
  calculate_gl_score max_answers = inr (inject_Z 48) ∧
  ¬ (inject_Z 48 <= 47)%Q.
Proof.
  split; [apply max_answers_valid|]. split; [apply max_answers_well_formed|].
  split; [by vm_compute | by vm_compute].
Qed.

(** The lowest valid score is attained as well. *)
Lemma min_answers_score_is_13 :
  valid_answer_set min_answers ∧
  calculate_gl_score min_answers = inr (inject_Z 13).
Proof.
  split; [|by vm_compute]. split; [reflexivity|].
  repeat constructor; by_decide.
Qed.

(** A list with a repeated question number is never scored: the call
    fails with a client error. *)
Lemma calculate_gl_score_repeated_fails l :
  ¬ NoDup (question <$> l) →
  ∃ e, calculate_gl_score l = inl e ∧ status_code e = 400.
Proof.
  intros Hdup. destruct (calculate_gl_score l) as [e|r] eqn:Hcalc.
  - exists e. split; [done|]. by eapply calculate_gl_score_status.
  - by apply calculate_gl_score_inr in Hcalc as [? _].
Qed.

(** C6, as stated, fails: the list [repeat_after_invalid_choice] has
    question 1 in its second and third entries, and the call fails with
    the invalid-choice error of its first entry, not with the duplicate
    error for question 1. *)
Lemma C6_counterexample :
  well_formed (mkPayload repeat_after_invalid_choice) ∧
  (question <$> repeat_after_invalid_choice) !! 1%nat = Some 1 ∧
  (question <$> repeat_after_invalid_choice) !! 2%nat = Some 1 ∧
  calculate_gl_score repeat_after_invalid_choice =
    raise 400 (InvalidAnswerChoice "D" 4 ["A"; "B"; "C"]) ∧
  calculate_gl_score repeat_after_invalid_choice ≠
    raise 400 (AnsweredMoreThanOnce 1).
Proof.
  split.
  { split; [reflexivity|]. cbn [answers]. unfold repeat_after_invalid_choice.
    repeat constructor; cbn [question answer]; try lia;
      repeat first [apply list_elem_of_here | apply list_elem_of_further]. }
  split; [reflexivity|]. split; [reflexivity|].
  split; [by vm_compute | by vm_compute].
Qed.

(** C6 (amended).  When an entry repeats the question number of an
    earlier entry, and the entries before it have distinct known question
    numbers and valid choices, [calculate_gl_score] fails with status 400
    and the duplicate error for that question number, whatever the choice
    of the repeating entry and whatever follows it. *)
Theorem C6_first_repeat_raises_duplicate (l1 : list Answer) (a : Answer)
    (l2 : list Answer) :
  NoDup (question <$> l1) → Forall scorable l1 →
  question a ∈ question <$> l1 →
  calculate_gl_score (l1 ++ a :: l2) =
    raise 400 (AnsweredMoreThanOnce (question a)).
Proof.
  intros Hnd Hl Hin. unfold calculate_gl_score.
  by rewrite scan_answers_dup.
Qed.

Lemma C6_first_repeat_raises_duplicate_witness :
  calculate_gl_score
    ([mkAnswer 2 "B"; mkAnswer 1 "A"] ++ mkAnswer 2 "Z" :: [mkAnswer 99 "A"]) =
  raise 400 (AnsweredMoreThanOnce 2).
Proof.
  apply (C6_first_repeat_raises_duplicate
           [mkAnswer 2 "B"; mkAnswer 1 "A"] (mkAnswer 2 "Z") [mkAnswer 99 "A"]).
  - by_decide.
  - repeat constructor; by_decide.
  - apply list_elem_of_here.
Defined.

(** C8.  When the scan meets no duplicate, unknown question or invalid
    choice, but the question numbers answered are not exactly 1..13, the
    scan runs to the end of the list and [calculate_gl_score] then fails
    with status 400 and the incomplete-answer-set error. *)
Theorem C8_incomplete_answer_set (l : list Answer) :
  NoDup (question <$> l) → Forall scorable l →
  list_to_set (question <$> l) ≠@{gset Z} list_to_set ALL_QUESTIONS →
  (∃ st, scan_answers (0, ∅) l = inr st) ∧
  calculate_gl_score l = raise 400 MustProvideAll13.
Proof.
  intros Hnd Hl Hne.
  split; [by apply scan_answers_succeeds|].
  unfold calculate_gl_score. rewrite scan_answers_ok by done.
  cbn [mbind Raises_bind].
  rewrite size_list_to_set, length_fmap by done.
  rewrite decide_True; [done|]. intros Hlen. apply Hne.
  assert (valid_answer_set l) as [Hperm _] by by apply valid_answer_set_alt.
  by rewrite Hperm.
Qed.

Lemma C8_incomplete_answer_set_witness :
  (∃ st, scan_answers (0, ∅) [mkAnswer 3 "B"; mkAnswer 9 "A"] = inr st) ∧
  calculate_gl_score [mkAnswer 3 "B"; mkAnswer 9 "A"] =
    raise 400 MustProvideAll13.
Proof.
  apply (C8_incomplete_answer_set [mkAnswer 3 "B"; mkAnswer 9 "A"]).
  - by_decide.
  - repeat constructor; by_decide.
  - by_decide.
Defined.

(** ** Stage 3: the allocation table *)

Lemma TIERS_values :
  Forall2 Qeq TIERS
    [1; 3 # 2; 2; 5 # 2; 3; 7 # 2; 4; 9 # 2; 5; 11 # 2; 6; 13 # 2; 7;
     15 # 2; 8; 17 # 2; 9; 19 # 2; 10]%Q.
Proof. repeat constructor. Qed.

(** C7.  The allocation table has 19 records, keyed by the 19 tiers, and
    in each of them the three weights are non-negative integers whose sum
    is 100. *)
Theorem C7_allocations_sum_to_100 :
  length BIBIT_ALLOCATIONS = 19%nat ∧
  Forall2 Qeq BIBIT_ALLOCATIONS.*1 TIERS ∧
  Forall (λ row, 0 ≤ money_market row ∧ 0 ≤ obligation row ∧ 0 ≤ stocks row ∧
                 money_market row + obligation row + stocks row = 100)
         BIBIT_ALLOCATIONS.*2.
Proof.
  split; [reflexivity|]. split.
  - repeat constructor.
  - repeat constructor; cbn; lia.
Qed.

Lemma table_get_comp t t' table :
  (t == t')%Q → table_get t table = table_get t' table.
Proof.
  intros Heq. induction table as [|[key row] table IH]; [done|].
  cbn [table_get]. by rewrite IH, (Qeqb_comp _ _ Heq key key (Qeq_refl key)).
Qed.

Lemma get_allocations_comp t t' :
  (t == t')%Q →
  ∀ row, get_allocations t = inr row → get_allocations t' = inr row.
Proof.
  intros Heq row. unfold get_allocations.
  rewrite (table_get_comp t t' _ Heq).
  by destruct (table_get t' BIBIT_ALLOCATIONS).
Qed.

(** Every tier has a record. *)
Lemma tiers_configured :
  Forall (λ t, ∃ row, get_allocations t = inr row) TIERS.
Proof. repeat constructor; eexists; reflexivity. Qed.

Lemma half_step_in_TIERS n :
  2 ≤ n ≤ 20 → (inject_Z n * (1 # 2))%Q ∈ TIERS.
Proof.
  intros Hn. unfold TIERS.
  apply (list_elem_of_fmap_2 (λ k, inject_Z k * (1 # 2))%Q).
  apply elem_of_seqZ. lia.
Qed.

(** ** The claims about the rescaler and the lookup *)


Lemma get_allocations_scale_total x :
  ∃ row, get_allocations (scale_to_bibit_score x) = inr row.
Proof.
  destruct (scale_to_bibit_score_half_steps x) as (n & Hn & Hx).
  pose proof (half_step_in_TIERS n Hn) as Hin.
  pose proof tiers_configured as Hall.
  rewrite Forall_forall in Hall. destruct (Hall _ Hin) as [row Hrow].
  exists row. eapply get_allocations_comp; [|done]. by symmetry.
Qed.

(** C3.  Each of the 19 tiers has a record in the allocation table, so
    for every score the lookup of the rescaled score returns a record and
    raises nothing. *)
Theorem C3_rescaled_score_is_configured :
  Forall (λ t, ∃ row, get_allocations t = inr row) TIERS ∧
  ∀ x : Q, ∃ row, get_allocations (scale_to_bibit_score x) = inr row.
Proof. split; [apply tiers_configured | apply get_allocations_scale_total]. Qed.

Section rescaler_claims.
Local Open Scope Q_scope.
Implicit Types (x a b : Q).






Lemma scale_to_bibit_score_range x :
  1 <= scale_to_bibit_score x <= 10.
Proof.
  destruct (scale_to_bibit_score_half_steps x) as (n & [Hlo Hhi] & ->).
  rewrite Zle_Qle in Hlo, Hhi.
  change (inject_Z 2) with 2 in Hlo. change (inject_Z 20) with 20 in Hhi.
  split; lra.
Qed.

(** C10.  [scale_to_bibit_score] is monotone: a higher score never gives
    a lower tier. *)
Theorem C10_scale_to_bibit_score_monotone a b :
  a <= b → scale_to_bibit_score a <= scale_to_bibit_score b.
Proof.
  intros Hab.
  destruct (scale_to_bibit_score_cases a)
    as [[_ ->]|[[Ha ->]|([Ha0 Ha47] & _ & ->)]].
  - apply scale_to_bibit_score_range.
  - rewrite scale_to_bibit_score_high by lra. apply Qle_refl.
  - destruct (scale_to_bibit_score_cases b)
      as [[Hb _]|[[_ ->]|(_ & Hnb & ->)]]; [lra| |].
    + assert (py_round (2 + a * (18 # 47)) ≤ 20)%Z as Hna.
      { rewrite <-(py_round_Z 20). apply py_round_mono.
        change (inject_Z 20) with 20. lra. }
      rewrite Zle_Qle in Hna. change (inject_Z 20) with 20 in Hna. lra.
    + assert (py_round (2 + a * (18 # 47)) ≤ py_round (2 + b * (18 # 47)))%Z
        as Hn by (apply py_round_mono; lra).
      rewrite Zle_Qle in Hn. lra.
Qed.

Lemma C10_scale_to_bibit_score_monotone_witness :
  scale_to_bibit_score 13 <= scale_to_bibit_score 14.
Proof. apply (C10_scale_to_bibit_score_monotone 13 14). by vm_compute. Defined.

End rescaler_claims.

(** ** The handler *)

(** C2.  On the payload that takes the best choice of every question the
    handler returns tier 10, the profile "Agresif" (Aggressive) and the
    allocation 10 / 20 / 70, but with the raw score 48, not 47. *)
Theorem C2_max_answers_end_to_end :
  assess_risk (mkPayload max_answers) =
  inr {| gl_score := inject_Z 48;
         risk_profile_score := 10;
         response_profile := "Agresif";
         allocations := {[ "money_market" := 10%Q;
                           "obligation" := 20%Q;
                           "stocks" := 70%Q ]} |}.
Proof. by vm_compute. Qed.

(** The handler fails exactly when the scorer does: the other two stages
    never raise. *)
Lemma assess_risk_inl payload e :
  assess_risk payload = inl e ↔ calculate_gl_score (answers payload) = inl e.
Proof.
  unfold assess_risk.
  destruct (calculate_gl_score (answers payload)) as [e'|r];
    cbn [mbind Raises_bind]; [by split; intros [= ->]|].
  destruct (get_allocations_scale_total r) as [row ->].
  cbn [mbind Raises_bind]. split; intros [=].
Qed.



(** ** Exact arithmetic against binary64 *)

Lemma binary64_agrees_on_scores score :
  0 ≤ score ≤ 48 → binary64_agrees_at score = true.
Proof.
  intros Hscore.
  assert (forallb binary64_agrees_at (seqZ 0 49) = true) as Hall
    by (vm_compute; reflexivity).
  rewrite forallb_forall in Hall. apply Hall.
  apply list_elem_of_In, elem_of_seqZ. lia.
Qed.

(** On every score that [calculate_gl_score] can return, the rescaler
    run in binary64 arithmetic raises nothing and returns the tier of the
    exact model. *)
Theorem binary64_agrees_on_pipeline l r :
  calculate_gl_score l = inr r →
  ∃ score, r = inject_Z score ∧ binary64_agrees_at score = true.
Proof.
  intros (_ & score & -> & Hscore)%calculate_gl_score_inr_valid.
  exists score. split; [done|]. apply binary64_agrees_on_scores. lia.
Qed.

(** Beyond the finite numbers: the infinities are clamped like any other
    score, and NaN, for which both comparisons are false, reaches [round],
    which raises. *)
Lemma binary64_non_finite :
  Binary64.scale_to_bibit_score infinity = Some 10%float ∧
  Binary64.scale_to_bibit_score neg_infinity = Some 1%float ∧
  Binary64.scale_to_bibit_score nan = None.
Proof. by vm_compute. Qed.

(** ** Independence of the rounding

    The tier, lookup and monotonicity results do not rest on exact
    arithmetic: they hold for every rounding that is monotone and leaves
    the small half-integers unchanged, as round-to-nearest does. *)

Section rounded.
Local Open Scope Q_scope.
Variable rnd : Q → Q.
Hypothesis rnd_mono : ∀ x y : Q, x <= y → rnd x <= rnd y.
Hypothesis rnd_exact :
  ∀ k : Z, (0 ≤ k ≤ 846)%Z → rnd (inject_Z k * (1 # 2)) == inject_Z k * (1 # 2).

Lemma rnd_comp x y : x == y → rnd x == rnd y.
Proof.
  intros Hxy. apply Qle_antisym; apply rnd_mono; rewrite Hxy; apply Qle_refl.
Qed.

Lemma rnd_exact_Z n : (0 ≤ n ≤ 423)%Z → rnd (inject_Z n) == inject_Z n.
Proof.
  intros Hn.
  assert (inject_Z n == inject_Z (2 * n) * (1 # 2)) as Hhalf
    by (rewrite inject_Z_mult; change (inject_Z 2) with 2; field).
  rewrite (rnd_comp _ _ Hhalf), rnd_exact by lia. by symmetry.
Qed.

Lemma rnd_between (lo hi : Z) x :
  (0 ≤ lo)%Z → (hi ≤ 423)%Z →
  inject_Z lo <= x <= inject_Z hi → inject_Z lo <= rnd x <= inject_Z hi.
Proof.
  intros Hlo Hhi [Hx1 Hx2].
  assert (lo ≤ hi)%Z by (rewrite Zle_Qle; by apply Qle_trans with x).
  rewrite <-(rnd_exact_Z lo), <-(rnd_exact_Z hi) by lia.
  split; by apply rnd_mono.
Qed.

Lemma rounded_quotient_range x :
  0 < x < 47 → 2 <= rounded_quotient rnd x <= 20.
Proof.
  intros [Hx0 Hx47]. unfold rounded_quotient.
  assert (rnd (10 - 1) == 9) as H9 by (apply (rnd_exact_Z 9); lia).
  assert (rnd (47 - 0) == 47) as H47 by (apply (rnd_exact_Z 47); lia).
  assert (0 <= rnd (x * rnd (10 - 1)) <= 423) as Ht1.
  { apply (rnd_between 0 423); [lia | lia |]. rewrite H9.
    change (inject_Z 0) with 0. change (inject_Z 423) with 423. split; lra. }
  assert (0 <= rnd (rnd (x * rnd (10 - 1)) / rnd (47 - 0)) <= 9) as Ht2.
  { apply (rnd_between 0 9); [lia | lia |]. rewrite H47.
    change (inject_Z 0) with 0. change (inject_Z 9) with 9.
    set (t := rnd (x * rnd (10 - 1))) in *.
    assert (t / 47 == t * (1 # 47)) as -> by field. split; lra. }
  set (t2 := rnd (rnd (x * rnd (10 - 1)) / rnd (47 - 0))) in *.
  assert (1 <= rnd (1 + t2) <= 10) as Hu.
  { apply (rnd_between 1 10); [lia | lia |].
    change (inject_Z 1) with 1. change (inject_Z 10) with 10. split; lra. }
  set (u := rnd (1 + t2)) in *.
  apply (rnd_between 2 20); [lia | lia |].
  change (inject_Z 2) with 2. change (inject_Z 20) with 20.
  assert (u / (1 # 2) == u * 2) as -> by field. split; lra.
Qed.

Lemma rounded_quotient_mono a b :
  0 < a → a <= b → rounded_quotient rnd a <= rounded_quotient rnd b.
Proof.
  intros Ha Hab. unfold rounded_quotient.
  assert (rnd (10 - 1) == 9) as H9 by (apply (rnd_exact_Z 9); lia).
  assert (rnd (47 - 0) == 47) as H47 by (apply (rnd_exact_Z 47); lia).
  assert (rnd (a * rnd (10 - 1)) <= rnd (b * rnd (10 - 1))) as Ht1.
  { apply rnd_mono. rewrite H9. lra. }
  set (ta := rnd (a * rnd (10 - 1))) in *.
  set (tb := rnd (b * rnd (10 - 1))) in *.
  assert (rnd (ta / rnd (47 - 0)) <= rnd (tb / rnd (47 - 0))) as Ht2.
  { apply rnd_mono. rewrite H47.
    assert (ta / 47 == ta * (1 # 47)) as -> by field.
    assert (tb / 47 == tb * (1 # 47)) as -> by field. lra. }
  set (ta2 := rnd (ta / rnd (47 - 0))) in *.
  set (tb2 := rnd (tb / rnd (47 - 0))) in *.
  assert (rnd (1 + ta2) <= rnd (1 + tb2)) as Hu by (apply rnd_mono; lra).
  set (ua := rnd (1 + ta2)) in *. set (ub := rnd (1 + tb2)) in *.
  apply rnd_mono.
  assert (ua / (1 # 2) == ua * 2) as -> by field.
  assert (ub / (1 # 2) == ub * 2) as -> by field. lra.
Qed.

Lemma scale_to_bibit_score_rounded_cases x :
  (x <= 0 ∧ scale_to_bibit_score_rounded rnd x = 1) ∨
  (47 <= x ∧ scale_to_bibit_score_rounded rnd x = 10) ∨
  (0 < x < 47 ∧
   (2 ≤ py_round (rounded_quotient rnd x) ≤ 20)%Z ∧
   scale_to_bibit_score_rounded rnd x ==
     inject_Z (py_round (rounded_quotient rnd x)) * (1 # 2)).
Proof.
  unfold scale_to_bibit_score_rounded. cbv zeta.
  case_decide as Hlow; [by left|].
  case_decide as Hhigh; [by right; left|].
  right; right. apply Qnot_le_lt in Hlow, Hhigh.
  fold (rounded_quotient rnd x).
  pose proof (rounded_quotient_range x (conj Hlow Hhigh)) as [Hq2 Hq20].
  assert (2 ≤ py_round (rounded_quotient rnd x) ≤ 20)%Z as Hn.
  { rewrite <-(py_round_Z 2), <-(py_round_Z 20) at 1.
    split; by apply py_round_mono. }
  split; [done|]. split; [done|].
  set (n := py_round (rounded_quotient rnd x)) in *.
  assert (rnd (rnd (inject_Z n) * (1 # 2)) == inject_Z n * (1 # 2)) as Hr.
  { rewrite (rnd_comp (rnd (inject_Z n) * (1 # 2)) (inject_Z n * (1 # 2))).
    - apply rnd_exact. lia.
    - by rewrite rnd_exact_Z by lia. }
  unfold py_max, py_min.
  destruct Hn as [Hn2 Hn20]. rewrite Zle_Qle in Hn2, Hn20.
  change (inject_Z 2) with 2 in Hn2. change (inject_Z 20) with 20 in Hn20.
  repeat case_decide; lra.
Qed.

(** Under any such rounding the rescaler returns one of the 19 tiers,
    which the allocation table has, ... *)
Theorem scale_to_bibit_score_rounded_in_tiers x :
  ∃ t row, t ∈ TIERS ∧ scale_to_bibit_score_rounded rnd x == t ∧
           get_allocations (scale_to_bibit_score_rounded rnd x) = inr row.
Proof.
  assert (∃ n, (2 ≤ n ≤ 20)%Z ∧
               scale_to_bibit_score_rounded rnd x == inject_Z n * (1 # 2))
    as (n & Hn & Hx).
  { destruct (scale_to_bibit_score_rounded_cases x)
      as [[_ ->]|[[_ ->]|(_ & Hn & Hx)]];
      [by exists 2%Z | by exists 20%Z | eauto]. }
  pose proof (half_step_in_TIERS n Hn) as Hin.
  pose proof tiers_configured as Hall.
  rewrite Forall_forall in Hall. destruct (Hall _ Hin) as [row Hrow].
  exists (inject_Z n * (1 # 2)), row. split; [done|]. split; [done|].
  eapply get_allocations_comp; [|done]. by symmetry.
Qed.

(** ... and it is monotone. *)
Theorem scale_to_bibit_score_rounded_monotone a b :
  a <= b →
  scale_to_bibit_score_rounded rnd a <= scale_to_bibit_score_rounded rnd b.
Proof.
  intros Hab.
  destruct (scale_to_bibit_score_rounded_cases a)
    as [[Ha Ea]|[[Ha Ea]|([Ha0 Ha47] & [_ Hna] & Ea)]];
  destruct (scale_to_bibit_score_rounded_cases b)
    as [[Hb Eb]|[[Hb Eb]|([Hb0 Hb47] & [Hnb _] & Eb)]];
  rewrite Ea, Eb; try lra.
  - rewrite Zle_Qle in Hnb. change (inject_Z 2) with 2 in Hnb. lra.
  - rewrite Zle_Qle in Hna. change (inject_Z 20) with 20 in Hna. lra.
  - assert (py_round (rounded_quotient rnd a) ≤ py_round (rounded_quotient rnd b))%Z
      as Hn by by apply py_round_mono, rounded_quotient_mono.
    rewrite Zle_Qle in Hn. lra.
Qed.

End rounded.

(** The exact model is the instance with no rounding. *)
Lemma scale_to_bibit_score_rounded_id x :
  scale_to_bibit_score_rounded (λ q, q) x = scale_to_bibit_score x.
Proof. reflexivity. Qed.

(** * Further properties of the code *)

(** ** The scorer *)

Section scorer_properties.
Implicit Types (a : Answer) (l : list Answer).

Lemma sum_points_perm l1 l2 : l1 ≡ₚ l2 → sum_points l1 = sum_points l2.
Proof.
  induction 1; rewrite ?sum_points_cons; [done | lia | lia | congruence].
Qed.

Lemma assoc_None k d : assoc k d = None ↔ k ∉ keys d.
Proof.
  unfold keys. induction d as [|[k' v] d IH]; cbn [assoc fmap list_fmap fst].
  - split; [intros _; apply not_elem_of_nil | done].
  - rewrite not_elem_of_cons. case_decide as Hk; [|by rewrite IH; intuition].
    split; [done | by intros [? _]].
Qed.

(** A failing scan fails at one of its entries, in one of three ways. *)
Lemma scan_answers_inl l st e :
  scan_answers st l = inl e →
  status_code e = 400 ∧
  ∃ a, a ∈ l ∧
    (detail e = AnsweredMoreThanOnce (question a) ∨
     (GL_SCORING_KEY !! question a = None ∧
      detail e = InvalidQuestionNumber (question a)) ∨
     (∃ choices, GL_SCORING_KEY !! question a = Some choices ∧
        (answer a ∉ keys choices) ∧
        detail e = InvalidAnswerChoice (answer a) (question a) (keys choices))).
Proof.
  intros He. split; [by eapply scan_answers_status|].
  revert st He. induction l as [|a l IH]; intros [score answered]; [done|].
  rewrite scan_answers_cons.
  destruct (score_item (score, answered) a) as [e'|st'] eqn:Hitem.
  - intros [= <-]. exists a. split; [apply list_elem_of_here|].
    revert Hitem. unfold score_item, raise. case_decide; [by intros [= <-]; left|].
    destruct (GL_SCORING_KEY !! question a) as [choices|];
      [|by intros [= <-]; right; left].
    destruct (assoc (answer a) choices) eqn:Hassoc; [done|].
    intros [= <-]. right; right. exists choices.
    by rewrite <-assoc_None.
  - intros (a' & Ha' & Hcase)%IH. exists a'.
    split; [by apply list_elem_of_further | done].
Qed.

(** X1.  [calculate_gl_score] returns a score exactly on the valid answer
    sets (every question 1..13 once, each with one of its own choices),
    and the score is the sum of the points that the table gives to the
    entries. *)
Theorem X1_calculate_gl_score_returns_iff_valid l r :
  calculate_gl_score l = inr r ↔
  valid_answer_set l ∧ r = inject_Z (sum_points l).
Proof.
  rewrite calculate_gl_score_inr, valid_answer_set_alt. naive_solver.
Qed.

(** X2.  On a valid answer set the score is an integer from 13 to 48. *)
Theorem X2_valid_score_between_13_and_48 l :
  valid_answer_set l →
  ∃ score, calculate_gl_score l = inr (inject_Z score) ∧ 13 ≤ score ≤ 48.
Proof. apply calculate_gl_score_valid. Qed.

Lemma X2_valid_score_between_13_and_48_witness :
  ∃ score, calculate_gl_score min_answers = inr (inject_Z score) ∧
           13 ≤ score ≤ 48.
Proof.
  apply (X2_valid_score_between_13_and_48 min_answers).
  split; [reflexivity|]. repeat constructor; by_decide.
Defined.

(** X3.  The score does not depend on the order of the entries: when a
    list is scored, every reordering of it gets the same score. *)
Theorem X3_score_is_order_independent l1 l2 r :
  l1 ≡ₚ l2 → calculate_gl_score l1 = inr r → calculate_gl_score l2 = inr r.
Proof.
  intros Hperm. rewrite !calculate_gl_score_inr.
  intros (Hnd & Hl & Hlen & ->).
  split; [by rewrite <-Hperm|]. split; [by rewrite <-Hperm|].
  split; [by rewrite <-Hperm|]. by rewrite (sum_points_perm _ _ Hperm).
Qed.

Lemma X3_score_is_order_independent_witness :
  calculate_gl_score (reverse min_answers) = inr (inject_Z 13).
Proof.
  apply (X3_score_is_order_independent min_answers (reverse min_answers)).
  - symmetry. apply reverse_Permutation.
  - by vm_compute.
Defined.

(** X4.  A list that does not have exactly 13 entries is never scored:
    the call fails with status 400 (the empty list and lists of 14 or
    more entries included). *)
Theorem X4_wrong_length_is_rejected l :
  length l ≠ 13%nat →
  ∃ e, calculate_gl_score l = inl e ∧ status_code e = 400.
Proof.
  intros Hlen. destruct (calculate_gl_score l) as [e|r] eqn:Hcalc.
  - exists e. split; [done|]. by eapply calculate_gl_score_status.
  - by apply calculate_gl_score_inr in Hcalc as (_ & _ & ? & _).
Qed.

Lemma X4_wrong_length_is_rejected_witness :
  ∃ e, calculate_gl_score [] = inl e ∧ status_code e = 400.
Proof. apply (X4_wrong_length_is_rejected []). by vm_compute. Defined.

(** X5.  The first violation wins: once the scan of a prefix has failed,
    the call fails with that same exception whatever entries follow. *)
Theorem X5_prefix_failure_is_final l1 l2 e :
  scan_answers (0, ∅) l1 = inl e → calculate_gl_score (l1 ++ l2) = inl e.
Proof.
  intros He. unfold calculate_gl_score. by rewrite scan_answers_app, He.
Qed.

Lemma X5_prefix_failure_is_final_witness :
  calculate_gl_score ([mkAnswer 4 "D"] ++ [mkAnswer 4 "A"; mkAnswer 77 "A"]) =
  raise 400 (InvalidAnswerChoice "D" 4 ["A"; "B"; "C"]).
Proof.
  apply (X5_prefix_failure_is_final [mkAnswer 4 "D"]). by vm_compute.
Defined.

(** X6.  An entry with a question number outside the table, after
    entries with distinct known questions and valid choices, makes the
    call fail with status 400 and the invalid-question-number error,
    whatever its choice and whatever follows. *)
Theorem X6_unknown_question_is_reported l1 a l2 :
  NoDup (question <$> l1) → Forall scorable l1 →
  question a ∉ ALL_QUESTIONS →
  calculate_gl_score (l1 ++ a :: l2) =
    raise 400 (InvalidQuestionNumber (question a)).
Proof.
  intros Hnd Hl Hunknown.
  assert (GL_SCORING_KEY !! question a = None) as Hnone.
  { apply eq_None_not_Some. by rewrite known_question. }
  unfold calculate_gl_score.
  rewrite scan_answers_app, scan_answers_ok, scan_answers_cons by done.
  unfold score_item. rewrite decide_False, Hnone; [done|].
  rewrite elem_of_list_to_set.
  intros (a' & Hq & Ha')%list_elem_of_fmap. apply Hunknown. rewrite Hq.
  apply scorable_known. by eapply Forall_forall in Hl.
Qed.

Lemma X6_unknown_question_is_reported_witness :
  calculate_gl_score ([mkAnswer 3 "C"] ++ mkAnswer 14 "A" :: [mkAnswer 3 "C"]) =
  raise 400 (InvalidQuestionNumber 14).
Proof.
  apply (X6_unknown_question_is_reported [mkAnswer 3 "C"] (mkAnswer 14 "A")).
  - by_decide.
  - repeat constructor; by_decide.
  - by_decide.
Defined.

(** X7.  An entry for a known, not yet answered question whose letter is
    not one of that question's own choices, after entries with distinct
    known questions and valid choices, makes the call fail with status
    400 and the invalid-choice error, which carries the letter, the
    question and the question's choices in the order of the table. *)
Theorem X7_invalid_choice_is_reported l1 a l2 choices :
  NoDup (question <$> l1) → Forall scorable l1 →
  question a ∉ question <$> l1 →
  GL_SCORING_KEY !! question a = Some choices →
  answer a ∉ keys choices →
  calculate_gl_score (l1 ++ a :: l2) =
    raise 400 (InvalidAnswerChoice (answer a) (question a) (keys choices)).
Proof.
  intros Hnd Hl Hfresh Hchoices Hletter. unfold calculate_gl_score.
  rewrite scan_answers_app, scan_answers_ok, scan_answers_cons by done.
  unfold score_item.
  rewrite decide_False, Hchoices by by rewrite elem_of_list_to_set.
  apply assoc_None in Hletter. by rewrite Hletter.
Qed.

Lemma X7_invalid_choice_is_reported_witness :
  calculate_gl_score ([mkAnswer 1 "A"] ++ mkAnswer 9 "C" :: []) =
  raise 400 (InvalidAnswerChoice "C" 9 ["A"; "B"]).
Proof.
  apply (X7_invalid_choice_is_reported [mkAnswer 1 "A"] (mkAnswer 9 "C") []
           [("A", 1); ("B", 3)]).
  - by_decide.
  - repeat constructor; by_decide.
  - by_decide.
  - reflexivity.
  - by_decide.
Defined.

(** X19.  A list in which some question number occurs twice is never
    scored: the call fails with status 400, whichever violation the scan
    meets first. *)
Theorem X19_repeated_question_is_rejected l :
  ¬ NoDup (question <$> l) →
  ∃ e, calculate_gl_score l = inl e ∧ status_code e = 400.
Proof. apply calculate_gl_score_repeated_fails. Qed.

Lemma X19_repeated_question_is_rejected_witness :
  ∃ e, calculate_gl_score repeat_after_invalid_choice = inl e ∧
       status_code e = 400.
Proof.
  apply (X19_repeated_question_is_rejected repeat_after_invalid_choice).
  by_decide.
Defined.

End scorer_properties.

(** ** The allocation lookup *)

Lemma table_get_Some t table row :
  table_get t table = Some row → ∃ key, (key, row) ∈ table ∧ (t == key)%Q.
Proof.
  induction table as [|[key row'] table IH]; [done|]. cbn [table_get].
  destruct (Qeq_bool t key) eqn:Hkey.
  - intros [= ->]. exists key.
    split; [apply list_elem_of_here | by apply Qeq_bool_iff].
  - intros (key' & Hin & Heq)%IH. exists key'.
    split; [by apply list_elem_of_further | done].
Qed.

Lemma table_get_None t table :
  table_get t table = None ↔ Forall (λ kr, ¬ (t == kr.1)%Q) table.
Proof.
  induction table as [|[key row] table IH]; cbn [table_get].
  - split; [constructor | done].
  - rewrite Forall_cons. cbn [fst]. destruct (Qeq_bool t key) eqn:Hkey.
    + apply Qeq_bool_iff in Hkey. split; [done | by intros [? _]].
    + rewrite IH. split; [|by intros [_ ?]]. intros Hall. split; [|done].
      intros Heq%Qeq_bool_iff. congruence.
Qed.

Lemma BIBIT_ALLOCATIONS_keys : Forall2 Qeq BIBIT_ALLOCATIONS.*1 TIERS.
Proof. repeat constructor. Qed.

Lemma Exists_Qeq_Forall2 (t : Q) (l1 l2 : list Q) :
  Forall2 Qeq l1 l2 → Exists (Qeq t) l1 ↔ Exists (Qeq t) l2.
Proof.
  induction 1 as [|x y l1 l2 Hxy _ IH]; [done|].
  by rewrite !Exists_cons, IH, Hxy.
Qed.

Lemma get_allocations_domain (t : Q) :
  ((∃ row, get_allocations t = inr row) ↔ Exists (Qeq t) TIERS) ∧
  (¬ Exists (Qeq t) TIERS →
   get_allocations t = raise 500 (ScoreNotInTable t)).
Proof.
  assert (Exists (Qeq t) TIERS ↔ Exists (Qeq t) BIBIT_ALLOCATIONS.*1) as Hkeys.
  { symmetry. apply Exists_Qeq_Forall2, BIBIT_ALLOCATIONS_keys. }
  unfold get_allocations.
  destruct (table_get t BIBIT_ALLOCATIONS) as [row|] eqn:Hget.
  - assert (Exists (Qeq t) TIERS) as Hex.
    { apply Hkeys. apply table_get_Some in Hget as (key & Hin & Heq).
      apply Exists_exists. exists key. split; [|done].
      apply list_elem_of_fmap. by exists (key, row). }
    split; [split; eauto | done].
  - assert (¬ Exists (Qeq t) TIERS) as Hnex.
    { rewrite Hkeys, Exists_exists. intros (key & Hin & Heq).
      apply list_elem_of_fmap in Hin as ([key' row] & -> & Hin).
      apply table_get_None in Hget. rewrite Forall_forall in Hget.
      by apply (Hget _ Hin). }
    split; [|done]. split; [by intros [row [=]] | done].
Qed.

(** X8.  [get_allocations] returns a record exactly when the score is
    numerically one of the 19 tiers 1.0, 1.5, ..., 10.0; on every other
    score it raises status 500 with that score in the detail. *)
Theorem X8_get_allocations_domain (t : Q) :
  ((∃ row, get_allocations t = inr row) ↔ Exists (Qeq t) TIERS) ∧
  (¬ Exists (Qeq t) TIERS →
   get_allocations t = raise 500 (ScoreNotInTable t)).
Proof. apply get_allocations_domain. Qed.

Lemma X8_get_allocations_domain_witness :
  ((∃ row, get_allocations (5 # 4) = inr row) ↔ Exists (Qeq (5 # 4)) TIERS) ∧
  get_allocations (5 # 4) = raise 500 (ScoreNotInTable (5 # 4)).
Proof.
  destruct (X8_get_allocations_domain (5 # 4)) as [Hiff Hraise].
  split; [done|]. apply Hraise. by_decide.
Defined.

(** ** The handler *)

Section handler_properties.
Implicit Types (payload : RiskAssessmentPayload) (resp : AllocationResponse).

Lemma scale_to_bibit_score_mono (a b : Q) :
  (a <= b)%Q → (scale_to_bibit_score a <= scale_to_bibit_score b)%Q.
Proof.
  intros Hab. rewrite <-!scale_to_bibit_score_rounded_id.
  by apply scale_to_bibit_score_rounded_monotone.
Qed.

(** What the handler returns when it returns. *)
Lemma assess_risk_inr payload resp :
  assess_risk payload = inr resp ↔
  ∃ row,
    calculate_gl_score (answers payload) =
      inr (inject_Z (sum_points (answers payload))) ∧
    get_allocations
      (scale_to_bibit_score (inject_Z (sum_points (answers payload)))) =
      inr row ∧
    resp = {|
      gl_score := inject_Z (sum_points (answers payload));
      risk_profile_score :=
        scale_to_bibit_score (inject_Z (sum_points (answers payload)));
      response_profile := profile row;
      allocations :=
        {[ "money_market" := inject_Z (money_market row);
           "obligation" := inject_Z (obligation row);
           "stocks" := inject_Z (stocks row) ]} |}.
Proof.
  unfold assess_risk.
  destruct (calculate_gl_score (answers payload)) as [e|r] eqn:Hcalc;
    cbn [mbind Raises_bind].
  - split; [done | by intros (? & ? & _)].
  - pose proof Hcalc as (_ & _ & _ & ->)%calculate_gl_score_inr.
    destruct (get_allocations _) as [e|row];
      cbn [mbind Raises_bind mret Raises_ret].
    + split; [done | by intros (? & _ & ? & _)].
    + split.
      * intros [= <-]. by exists row.
      * by intros (row' & _ & [= <-] & ->).
Qed.

(** Every score the scorer can return passes a check that evaluation
    settles on the 36 scores from 13 to 48. *)
Lemma score_cases (check : Z → bool) (score : Z) :
  forallb check (seqZ 13 36) = true → 13 ≤ score ≤ 48 → check score = true.
Proof.
  intros Hall Hscore. rewrite forallb_forall in Hall. apply Hall.
  apply list_elem_of_In, elem_of_seqZ. lia.
Qed.

Lemma assess_risk_inl_status payload e :
  assess_risk payload = inl e →
  calculate_gl_score (answers payload) = inl e ∧ status_code e = 400.
Proof.
  intros He%assess_risk_inl. split; [done|].
  by eapply calculate_gl_score_status.
Qed.

(** X9.  Whatever the handler raises was raised by the scorer and has
    status 400: the handler never answers with the status 500 of a
    missing allocation. *)
Theorem X9_handler_raises_only_client_errors payload e :
  assess_risk payload = inl e →
  calculate_gl_score (answers payload) = inl e ∧ status_code e = 400.
Proof. apply assess_risk_inl_status. Qed.

Lemma X9_handler_raises_only_client_errors_witness :
  calculate_gl_score (answers (mkPayload repeat_after_invalid_choice)) =
    raise 400 (InvalidAnswerChoice "D" 4 ["A"; "B"; "C"]) ∧
  status_code (mkHTTPException 400 (InvalidAnswerChoice "D" 4 ["A"; "B"; "C"]))
    = 400.
Proof.
  apply (X9_handler_raises_only_client_errors
           (mkPayload repeat_after_invalid_choice)).
  by vm_compute.
Defined.

(** A letter from A to D can only be invalid for question 4, 5, 9 or 10. *)
Lemma invalid_letter_questions q ans choices :
  q ∈ ALL_QUESTIONS → ans ∈ ["A"; "B"; "C"; "D"] →
  GL_SCORING_KEY !! q = Some choices → ans ∉ keys choices →
  q ∈ [4; 5; 9; 10].
Proof.
  rewrite ALL_QUESTIONS_eq. intros Hq Hans Hchoices Hletter.
  repeat (apply elem_of_cons in Hq as [->|Hq]);
    [..|by apply elem_of_nil in Hq].
  all: vm_compute in Hchoices; injection Hchoices as <-.
  all: try by_decide.
  all: exfalso; apply Hletter.
  all: repeat (apply elem_of_cons in Hans as [->|Hans]); try by_decide.
  all: by apply elem_of_nil in Hans.
Qed.

(** X10.  On a payload that the request schema accepts (13 entries,
    question numbers from 1 to 13, letters from A to D) the handler can
    fail in two ways only: an entry repeats a question, or an entry for
    question 4, 5, 9 or 10 has a letter that the question does not offer.
    The unknown-question, incomplete-set and missing-allocation errors
    cannot occur. *)
Theorem X10_schema_valid_payload_failures payload e :
  well_formed payload → assess_risk payload = inl e →
  status_code e = 400 ∧
  ∃ a, a ∈ answers payload ∧
    (detail e = AnsweredMoreThanOnce (question a) ∨
     (question a ∈ [4; 5; 9; 10] ∧
      ∃ choices, GL_SCORING_KEY !! question a = Some choices ∧
        detail e = InvalidAnswerChoice (answer a) (question a) (keys choices))).
Proof.
  intros [Hlen Hall] [Hcalc Hstatus]%assess_risk_inl_status.
  split; [done|]. revert Hcalc. unfold calculate_gl_score.
  destruct (scan_answers (0, ∅) (answers payload)) as [e'|[score answered]]
    eqn:Hscan; cbn [mbind Raises_bind].
  - intros [= ->].
    apply scan_answers_inl in Hscan as (_ & a & Ha & Hcase).
    exists a. split; [done|].
    rewrite Forall_forall in Hall. destruct (Hall _ Ha) as [Hq Hans].
    assert (question a ∈ ALL_QUESTIONS) as Hknown by (apply elem_of_seqZ; lia).
    destruct Hcase as [Hdup|[[Hnone _]|(choices & Hchoices & Hletter & Hd)]].
    + by left.
    + apply known_question in Hknown as [? ?]. congruence.
    + right. split; [by eapply invalid_letter_questions | eauto].
  - assert (NoDup (question <$> answers payload) ∧ Forall scorable (answers payload))
      as [Hnd Hl] by (apply scan_answers_succeeds; eauto).
    rewrite scan_answers_ok in Hscan by done. injection Hscan as _ <-.
    rewrite size_list_to_set, length_fmap, Hlen by done.
    by rewrite decide_False by (intros Hne; by apply Hne).
Qed.

Lemma X10_schema_valid_payload_failures_witness :
  status_code (mkHTTPException 400 (InvalidAnswerChoice "D" 4 ["A"; "B"; "C"]))
    = 400 ∧
  ∃ a, a ∈ answers (mkPayload repeat_after_invalid_choice) ∧
    (detail (mkHTTPException 400 (InvalidAnswerChoice "D" 4 ["A"; "B"; "C"]))
       = AnsweredMoreThanOnce (question a) ∨
     (question a ∈ [4; 5; 9; 10] ∧
      ∃ choices, GL_SCORING_KEY !! question a = Some choices ∧
        detail (mkHTTPException 400 (InvalidAnswerChoice "D" 4 ["A"; "B"; "C"]))
          = InvalidAnswerChoice (answer a) (question a) (keys choices))).
Proof.
  apply (X10_schema_valid_payload_failures
           (mkPayload repeat_after_invalid_choice)).
  - split; [reflexivity|]. cbn [answers]. unfold repeat_after_invalid_choice.
    repeat constructor; cbn [question answer]; try lia; by_decide.
  - by vm_compute.
Defined.

(** X11.  A response is returned exactly for the valid answer sets, and
    then its raw score is the sum of the points (13 to 48), its tier is
    one of the tiers from 3.5 to 10.0, and its three weights are
    non-negative integers whose sum is 100. *)
Theorem X11_response_is_well_formed payload resp :
  assess_risk payload = inr resp →
  valid_answer_set (answers payload) ∧
  gl_score resp = inject_Z (sum_points (answers payload)) ∧
  13 ≤ sum_points (answers payload) ≤ 48 ∧
  risk_profile_score resp = scale_to_bibit_score (gl_score resp) ∧
  (7 # 2 <= risk_profile_score resp <= 10)%Q ∧
  Exists (Qeq (risk_profile_score resp)) TIERS ∧
  ∃ mm ob st : Z,
    allocations resp =
      {[ "money_market" := inject_Z mm; "obligation" := inject_Z ob;
         "stocks" := inject_Z st ]} ∧
    0 ≤ mm ∧ 0 ≤ ob ∧ 0 ≤ st ∧ mm + ob + st = 100.
Proof.
  intros (row & Hcalc & Hrow & ->)%assess_risk_inr.
  cbn [gl_score risk_profile_score allocations].
  pose proof Hcalc as (Hvalid & score & Hscore & Hrange)%calculate_gl_score_inr_valid.
  unfold inject_Z in Hscore. injection Hscore as <-.
  split; [done|]. split; [done|]. split; [done|]. split; [done|].
  set (score := sum_points (answers payload)) in *.
  pose (check := λ s,
          match table_get (scale_to_bibit_score (inject_Z s))
                          BIBIT_ALLOCATIONS with
          | Some r =>
              bool_decide
                ((7 # 2 <= scale_to_bibit_score (inject_Z s) <= 10)%Q ∧
                 0 ≤ money_market r ∧ 0 ≤ obligation r ∧ 0 ≤ stocks r ∧
                 money_market r + obligation r + stocks r = 100)
          | None => false
          end).
  assert (check score = true) as Hcheck
    by (apply score_cases; [by vm_compute | done]).
  subst check. cbn beta in Hcheck. unfold get_allocations in Hrow.
  destruct (table_get _ BIBIT_ALLOCATIONS) as [r|] eqn:Hget; [|done].
  injection Hrow as ->.
  apply bool_decide_eq_true in Hcheck as (Htier & Hmm & Hob & Hst & Hsum).
  split; [done|]. split.
  - apply (proj1 (get_allocations_domain _)). unfold get_allocations. rewrite Hget. eauto.
  - exists (money_market row), (obligation row), (stocks row). done.
Qed.

Lemma X11_response_is_well_formed_witness :
  ∃ resp,
    assess_risk (mkPayload min_answers) = inr resp ∧
    valid_answer_set (answers (mkPayload min_answers)) ∧
    gl_score resp = inject_Z (sum_points (answers (mkPayload min_answers))) ∧
    13 ≤ sum_points (answers (mkPayload min_answers)) ≤ 48 ∧
    risk_profile_score resp = scale_to_bibit_score (gl_score resp) ∧
    (7 # 2 <= risk_profile_score resp <= 10)%Q ∧
    Exists (Qeq (risk_profile_score resp)) TIERS ∧
    ∃ mm ob st : Z,
      allocations resp =
        {[ "money_market" := inject_Z mm; "obligation" := inject_Z ob;
           "stocks" := inject_Z st ]} ∧
      0 ≤ mm ∧ 0 ≤ ob ∧ 0 ≤ st ∧ mm + ob + st = 100.
Proof.
  eexists. split; [vm_compute; reflexivity|].
  apply (X11_response_is_well_formed (mkPayload min_answers)).
  vm_compute; reflexivity.
Defined.

(** X12.  The profile of a response is decided by the raw score alone:
    "Konservatif" up to 16, "Moderat" from 17 to 32, "Agresif" from 33. *)
Theorem X12_profile_bands payload resp :
  assess_risk payload = inr resp →
  response_profile resp =
    if decide (gl_score resp <= 16)%Q then "Konservatif"
    else if decide (gl_score resp <= 32)%Q then "Moderat"
    else "Agresif".
Proof.
  intros (row & Hcalc & Hrow & ->)%assess_risk_inr.
  cbn [gl_score response_profile].
  pose proof Hcalc as (_ & score & Hscore & Hrange)%calculate_gl_score_inr_valid.
  unfold inject_Z in Hscore. injection Hscore as <-.
  set (score := sum_points (answers payload)) in *.
  pose (check := λ s,
          match table_get (scale_to_bibit_score (inject_Z s))
                          BIBIT_ALLOCATIONS with
          | Some r =>
              bool_decide
                (profile r =
                 if decide (inject_Z s <= 16)%Q then "Konservatif"
                 else if decide (inject_Z s <= 32)%Q then "Moderat"
                 else "Agresif")
          | None => false
          end).
  assert (check score = true) as Hcheck
    by (apply score_cases; [by vm_compute | done]).
  subst check. cbn beta in Hcheck. unfold get_allocations in Hrow.
  destruct (table_get _ BIBIT_ALLOCATIONS) as [r|] eqn:Hget; [|done].
  injection Hrow as ->. by apply bool_decide_eq_true in Hcheck.
Qed.

Lemma X12_profile_bands_witness :
  ∃ resp,
    assess_risk (mkPayload min_answers) = inr resp ∧
    response_profile resp =
      if decide (gl_score resp <= 16)%Q then "Konservatif"
      else if decide (gl_score resp <= 32)%Q then "Moderat"
      else "Agresif".
Proof.
  eexists. split; [vm_compute; reflexivity|].
  apply (X12_profile_bands (mkPayload min_answers)).
  vm_compute; reflexivity.
Defined.

End handler_properties.

(** ** The rescaler *)

Section rescaler_properties.
Local Open Scope Q_scope.
Implicit Types (x a b : Q) (n : Z).

Lemma half_step_le n1 n2 :
  inject_Z n1 * (1 # 2) <= inject_Z n2 * (1 # 2) → (n1 ≤ n2)%Z.
Proof. intros Hle. rewrite Zle_Qle. lra. Qed.

Lemma get_allocations_half_step x row :
  get_allocations (scale_to_bibit_score x) = inr row →
  ∃ n, (2 ≤ n ≤ 20)%Z ∧ scale_to_bibit_score x == inject_Z n * (1 # 2) ∧
       table_get (inject_Z n * (1 # 2)) BIBIT_ALLOCATIONS = Some row.
Proof.
  intros Hrow.
  destruct (scale_to_bibit_score_half_steps x) as (n & Hn & Hx).
  exists n. split; [done|]. split; [done|].
  apply (get_allocations_comp _ _ Hx) in Hrow. unfold get_allocations in Hrow.
  by destruct (table_get _ BIBIT_ALLOCATIONS) as [r|]; [injection Hrow as ->|].
Qed.

Lemma half_step_cases (check : Z → bool) n :
  forallb check (seqZ 2 19) = true → (2 ≤ n ≤ 20)%Z → check n = true.
Proof.
  intros Hall Hn. rewrite forallb_forall in Hall. apply Hall.
  apply list_elem_of_In, elem_of_seqZ. lia.
Qed.

(** X13.  A higher score never lowers the share of stocks and never
    raises the share of the money market in the allocation found for it. *)
Theorem X13_allocation_follows_score a b ra rb :
  a <= b →
  get_allocations (scale_to_bibit_score a) = inr ra →
  get_allocations (scale_to_bibit_score b) = inr rb →
  (stocks ra ≤ stocks rb)%Z ∧ (money_market rb ≤ money_market ra)%Z.
Proof.
  intros Hab (na & Hna & Ha & Hra)%get_allocations_half_step
             (nb & Hnb & Hb & Hrb)%get_allocations_half_step.
  assert (na ≤ nb)%Z as Hle.
  { apply half_step_le. rewrite <-Ha, <-Hb. by apply scale_to_bibit_score_mono. }
  pose (row := λ n, table_get (inject_Z n * (1 # 2)) BIBIT_ALLOCATIONS).
  pose (check := λ n1,
          forallb (λ n2,
            if decide (n1 ≤ n2)%Z then
              match row n1, row n2 with
              | Some r1, Some r2 =>
                  bool_decide ((stocks r1 ≤ stocks r2)%Z ∧
                               (money_market r2 ≤ money_market r1)%Z)
              | _, _ => false
              end
            else true) (seqZ 2 19)).
  assert (check na = true) as Hcheck
    by (apply half_step_cases; [by vm_compute | done]).
  subst check. cbn beta in Hcheck.
  apply (half_step_cases _ nb) in Hcheck; [|done].
  subst row. cbn beta in Hcheck. rewrite decide_True, Hra, Hrb in Hcheck by done.
  by apply bool_decide_eq_true in Hcheck.
Qed.

Lemma X13_allocation_follows_score_witness :
  ∃ ra rb,
    get_allocations (scale_to_bibit_score 13) = inr ra ∧
    get_allocations (scale_to_bibit_score 40) = inr rb ∧
    (stocks ra ≤ stocks rb)%Z ∧ (money_market rb ≤ money_market ra)%Z.
Proof.
  do 2 eexists. split; [vm_compute; reflexivity|].
  split; [vm_compute; reflexivity|].
  apply (X13_allocation_follows_score 13 40);
    [by vm_compute | vm_compute; reflexivity | vm_compute; reflexivity].
Defined.

(** X14.  Every one of the 19 tiers is the rescaled value of some score:
    the rescaler can send a score to each row of the allocation table. *)
Theorem X14_every_tier_is_reached (t : Q) :
  t ∈ TIERS → ∃ x, scale_to_bibit_score x == t.
Proof.
  unfold TIERS. intros (n & -> & Hn%elem_of_seqZ)%list_elem_of_fmap.
  exists ((inject_Z n - 2) * (47 # 18)).
  assert (2 <= inject_Z n <= 20) as [Hn2 Hn20].
  { change 2 with (inject_Z 2). change 20 with (inject_Z 20).
    rewrite <-!Zle_Qle. lia. }
  destruct (scale_to_bibit_score_cases ((inject_Z n - 2) * (47 # 18)))
    as [[Hx ->]|[[Hx ->]|(_ & _ & ->)]].
  - lra.
  - lra.
  - assert (2 + (inject_Z n - 2) * (47 # 18) * (18 # 47) == inject_Z n) as Hy
      by field.
    by rewrite (py_round_comp _ _ Hy), py_round_Z.
Qed.

Lemma X14_every_tier_is_reached_witness :
  ∃ x, scale_to_bibit_score x == 5 # 2.
Proof.
  destruct (X14_every_tier_is_reached (inject_Z 5 * (1 # 2))) as [x Hx].
  - apply (half_step_in_TIERS 5). lia.
  - exists x. rewrite Hx. reflexivity.
Defined.

(** X15.  One more point of raw score moves the tier up by at most one
    step of 0.5, and never down. *)
Theorem X15_one_point_one_step x :
  0 <= scale_to_bibit_score (x + 1) - scale_to_bibit_score x <= 1 # 2.
Proof.
  assert (scale_to_bibit_score x <= scale_to_bibit_score (x + 1)) as Hmono
    by (apply scale_to_bibit_score_mono; lra).
  split; [lra|].
  destruct (scale_to_bibit_score_cases x)
    as [[Hx Ex]|[[Hx Ex]|([Hx0 Hx47] & _ & Ex)]];
  destruct (scale_to_bibit_score_cases (x + 1))
    as [[Hy Ey]|[[Hy Ey]|([Hy0 Hy47] & [Hn2 Hn20] & Ey)]];
  rewrite Ex, Ey; try lra.
  - assert (py_round (2 + (x + 1) * (18 # 47)) ≤ 2)%Z as Hn.
    { change 2%Z with (py_round (2 + (18 # 47))) at 2.
      apply py_round_mono. lra. }
    rewrite Zle_Qle in Hn. change (inject_Z 2) with 2 in Hn. lra.
  - assert (20 ≤ py_round (2 + x * (18 # 47)))%Z as Hn.
    { change 20%Z with (py_round (2 + 46 * (18 # 47))) at 1.
      apply py_round_mono. lra. }
    rewrite Zle_Qle in Hn. change (inject_Z 20) with 20 in Hn. lra.
  - pose proof (py_round_bounds (2 + x * (18 # 47))) as [_ Hlo].
    pose proof (py_round_bounds (2 + (x + 1) * (18 # 47))) as [Hhi _].
    assert (py_round (2 + (x + 1) * (18 # 47)) ≤
            py_round (2 + x * (18 # 47)) + 1)%Z as Hn.
    { apply Z.lt_succ_r. rewrite Zlt_Qlt. unfold Z.succ.
      rewrite !inject_Z_plus. change (inject_Z 1) with 1. lra. }
    rewrite Zle_Qle, inject_Z_plus in Hn. change (inject_Z 1) with 1 in Hn.
    lra.
Qed.

End rescaler_properties.

(** ** The rescaler in floating-point arithmetic *)

Section rounding_properties.
Local Open Scope Q_scope.

(** X16.  On every score that [calculate_gl_score] can return, the
    rescaler evaluated in IEEE binary64 arithmetic on [float(score)]
    raises nothing and returns a float whose value is the tier of the
    exact rescaler. *)
Theorem X16_binary64_rescaler_agrees (l : list Answer) (r : Q) :
  calculate_gl_score l = inr r →
  ∃ (score : Z) (t : float) (q : Q),
    r = inject_Z score ∧
    Binary64.scale_to_bibit_score (Binary64.of_int score) = Some t ∧
    Binary64.to_Q t = Some q ∧
    q == scale_to_bibit_score r.
Proof.
  intros (score & -> & Hagree)%binary64_agrees_on_pipeline.
  unfold binary64_agrees_at in Hagree.
  destruct (Binary64.scale_to_bibit_score (Binary64.of_int score))
    as [t|] eqn:Hrun; [|done].
  cbn [mbind option_bind] in Hagree.
  destruct (Binary64.to_Q t) as [q|] eqn:Hvalue; [|done].
  exists score, t, q. by apply Qeq_bool_iff in Hagree.
Qed.

Lemma X16_binary64_rescaler_agrees_witness :
  ∃ (score : Z) (t : float) (q : Q),
    inject_Z 13 = inject_Z score ∧
    Binary64.scale_to_bibit_score (Binary64.of_int score) = Some t ∧
    Binary64.to_Q t = Some q ∧
    q == scale_to_bibit_score (inject_Z 13).
Proof.
  apply (X16_binary64_rescaler_agrees min_answers). vm_compute; reflexivity.
Defined.

Lemma round_to_1024ths_mono (x y : Q) :
  x <= y → round_to_1024ths x <= round_to_1024ths y.
Proof.
  intros Hxy. unfold round_to_1024ths.
  assert (py_round (x * 1024) ≤ py_round (y * 1024))%Z as Hn
    by (apply py_round_mono; lra).
  rewrite Zle_Qle in Hn.
  set (nx := inject_Z (py_round (x * 1024))) in *.
  set (ny := inject_Z (py_round (y * 1024))) in *.
  assert (nx / 1024 == nx * (1 # 1024)) as -> by field.
  assert (ny / 1024 == ny * (1 # 1024)) as -> by field. lra.
Qed.

Lemma round_to_1024ths_exact (k : Z) :
  (0 ≤ k ≤ 846)%Z →
  round_to_1024ths (inject_Z k * (1 # 2)) == inject_Z k * (1 # 2).
Proof.
  intros _. unfold round_to_1024ths.
  assert (inject_Z k * (1 # 2) * 1024 == inject_Z (512 * k)) as Hk
    by (rewrite inject_Z_mult; change (inject_Z 512) with 512; field).
  rewrite (py_round_comp _ _ Hk), py_round_Z, inject_Z_mult.
  change (inject_Z 512) with 512. field.
Qed.

(** X17.  Rounding errors cannot push the rescaler off the table: when
    the result of every arithmetic operation is rounded by a monotone
    rounding that leaves the half-integers up to 423 unchanged, the
    rescaled score is still one of the 19 tiers and its lookup returns a
    record. *)
Theorem X17_rounded_rescaler_stays_on_table (rnd : Q → Q) (x : Q) :
  (∀ a b : Q, a <= b → rnd a <= rnd b) →
  (∀ k : Z, (0 ≤ k ≤ 846)%Z →
            rnd (inject_Z k * (1 # 2)) == inject_Z k * (1 # 2)) →
  ∃ t row, t ∈ TIERS ∧ scale_to_bibit_score_rounded rnd x == t ∧
           get_allocations (scale_to_bibit_score_rounded rnd x) = inr row.
Proof. intros Hmono Hexact. by apply scale_to_bibit_score_rounded_in_tiers. Qed.

Lemma X17_rounded_rescaler_stays_on_table_witness :
  ∃ t row, t ∈ TIERS ∧
    scale_to_bibit_score_rounded round_to_1024ths (61 # 3) == t ∧
    get_allocations (scale_to_bibit_score_rounded round_to_1024ths (61 # 3))
      = inr row.
Proof.
  apply (X17_rounded_rescaler_stays_on_table round_to_1024ths (61 # 3)).
  - apply round_to_1024ths_mono.
  - apply round_to_1024ths_exact.
Defined.

(** X18.  Under the same roundings the rescaler stays monotone: a higher
    score never gets a lower tier. *)
Theorem X18_rounded_rescaler_monotone (rnd : Q → Q) (a b : Q) :
  (∀ x y : Q, x <= y → rnd x <= rnd y) →
  (∀ k : Z, (0 ≤ k ≤ 846)%Z →
            rnd (inject_Z k * (1 # 2)) == inject_Z k * (1 # 2)) →
  a <= b →
  scale_to_bibit_score_rounded rnd a <= scale_to_bibit_score_rounded rnd b.
Proof.
  intros Hmono Hexact. by apply scale_to_bibit_score_rounded_monotone.
Qed.

Lemma X18_rounded_rescaler_monotone_witness :
  scale_to_bibit_score_rounded round_to_1024ths (61 # 3) <=
  scale_to_bibit_score_rounded round_to_1024ths (62 # 3).
Proof.
  apply (X18_rounded_rescaler_monotone round_to_1024ths (61 # 3) (62 # 3)).
  - apply round_to_1024ths_mono.
  - apply round_to_1024ths_exact.
  - by vm_compute.
Defined.

End rounding_properties.
